(** * Voting power and quorum accounting of the IBFT validator manager

    A shallow embedding of [core/validator_manager.go] and the properties
    of its quorum arithmetic, of the manager state and of the
    prepare-quorum policy.

    Conventions of the embedding:
    - a [*big.Int] is a [Z]; the [math/big] operations the file calls
      are written out in [Module big];
    - a Go [map[string]*big.Int] is an [option (gmap string Z)], [None]
      being the nil map, which the code tests for; its values are taken
      to be allocated numbers, and a map the backend has handed over is
      taken not to be written to afterwards;
    - a Go [map[string]struct{}] is a [gset string];
    - a [[]byte] is a [list byte], a Go [string] is a [string], and the
      conversion [string(b)] is [String.string_of_list_byte];
    - a [range] over a map visits the entries in an order Go leaves
      open: every loop is a left fold over a list of the entries, run on
      stdpp's enumeration, and is shown not to depend on the order;
    - [vm.log.Error] appends to the entries a call emits, which the call
      returns next to its result;
    - the calls are taken one at a time, so the read/write lock has no
      effect on a result and is not represented. *)

From Stdlib Require Import ZArith Lia.
From Stdlib.Strings Require Import Byte String.
From stdpp Require Import gmap strings list fin_maps fin_sets.

Local Open Scope Z_scope.

(** ** The [math/big] operations in use *)

Module big.

(** [big.NewInt(x)] *)
Definition NewInt (x : Z) : Z := x.

(** [z.Mul(x, y)] *)
Definition Mul (x y : Z) : Z := x * y.

(** [z.Add(x, y)] *)
Definition Add (x y : Z) : Z := x + y.

(** [z.Div(x, y)] for [y <> 0]: Euclidean division, which [math/big]
    computes as the truncated quotient, moved by one away from the
    sign of [y] when the truncated remainder is negative. *)
Definition Div (x y : Z) : Z :=
  let q := Z.quot x y in
  let r := Z.rem x y in
  if r <? 0 then (if y <? 0 then q + 1 else q - 1) else q.

(** [x.Cmp(y)]: -1, 0 or +1. *)
Definition Cmp (x y : Z) : Z :=
  match x ?= y with
  | Lt => -1
  | Eq => 0
  | Gt => 1
  end.

End big.

(** ** Quorum arithmetic *)

(** [calculateQuorum]: multiply by two, divide by three, add one. *)
Definition calculateQuorum (totalVotingPower : Z) : Z :=
  let quorum := big.Mul totalVotingPower (big.NewInt 2) in
  let quorum := big.Div quorum (big.NewInt 3) in
  big.Add quorum (big.NewInt 1).

(** [calculateTotalVotingPower]: the loop adds every value of the map
    to a counter that starts at zero; [entries] are the map's entries in
    the order the [range] visits them. *)
Definition sumVotingPowers (entries : list (string * Z)) : Z :=
  foldl (fun totalVotingPower kv => big.Add totalVotingPower kv.2)
        (big.NewInt 0) entries.

(** A nil map ranges like an empty one. *)
Definition rangeOf (m : option (gmap string Z)) : list (string * Z) :=
  match m with
  | None => []
  | Some vp => map_to_list vp
  end.

Definition calculateTotalVotingPower
    (validatorsVotingPower : option (gmap string Z)) : Z :=
  sumVotingPowers (rangeOf validatorsVotingPower).

(** ** Collaborators declared outside the file *)

(** A Go [error]: the package's own value, or one made by the backend. *)
Inductive error : Type :=
  | errVotingPowerNotCorrect
  | backendError (msg : string).

(** The [ValidatorBackend] interface; a method returning [(x, error)]
    returns a pair whose second component is [None] for a nil error.
    A height is a [uint64], only ever handed on to the backend. *)
Record ValidatorBackend : Type := {
  GetVotingPowers : N -> option (gmap string Z) * option error;
  GetMinerAddress : string * option error
}.

(** Modelled from the spec: the phase enumeration [stateType] and its
    constant [prepare] are declared in another file of the package; the
    policy needs only to tell the prepare phase from the other phases
    (round change, prepare, commit and the final one). *)
Inductive stateType : Type := newRound | prepare | commit | fin.

#[global] Instance stateType_eq_dec : EqDecision stateType.
Proof. solve_decision. Defined.

(** Modelled from the spec: [proto.Message] is an external type of which
    the manager reads the sender address [From] and nothing else. *)
Record Message : Type := { From : list byte }.

(** Modelled from the spec: the [Logger] sink takes error-level
    free-form messages; an entry is what one [Error] call hands it. *)
Inductive logEntry : Type := ErrorEntry (msg : string).

Module bytes.

(** [bytes.Equal(a, b)]: same length and the same bytes; a nil slice
    and an empty one are equal. *)
Fixpoint Equal (a b : list byte) : bool :=
  match a, b with
  | [], [] => true
  | x :: a', y :: b' => Byte.eqb x y && Equal a' b'
  | _, _ => false
  end.

End bytes.

(** ** The validator manager *)

(** The fields of [ValidatorManager] that hold data; [vpLock] and the
    [log] handle carry none. *)
Record ValidatorManager : Type := {
  quorumSize : Z;
  validatorsVotingPower : option (gmap string Z);
  minerAddress : string;
  backend : ValidatorBackend
}.

(** [NewValidatorManager]: the pointer is nil exactly when the error is
    not. *)
Definition NewValidatorManager (backend : ValidatorBackend)
    : option ValidatorManager * option error :=
  let '(minerAddress, err) := GetMinerAddress backend in
  match err with
  | Some e => (None, Some e)
  | None =>
      (Some {| quorumSize := big.NewInt 0;
               backend := backend;
               validatorsVotingPower := None;
               minerAddress := minerAddress |}, None)
  end.

(** [setCurrentVotingPower]: the manager after the call and the error
    returned. *)
Definition setCurrentVotingPower (vm : ValidatorManager)
    (validatorsVotingPower : option (gmap string Z))
    : ValidatorManager * option error :=
  let totalVotingPower := calculateTotalVotingPower validatorsVotingPower in
  if big.Cmp totalVotingPower (big.NewInt 0) <=? 0
  then (vm, Some errVotingPowerNotCorrect)
  else
    ({| quorumSize := calculateQuorum totalVotingPower;
        validatorsVotingPower := validatorsVotingPower;
        minerAddress := vm.(minerAddress);
        backend := vm.(backend) |}, None).

(** [Init] *)
Definition Init (vm : ValidatorManager) (height : N)
    : ValidatorManager * option error :=
  let '(validatorsVotingPower, err) :=
    GetVotingPowers vm.(backend) height in
  match err with
  | Some e => (vm, Some e)
  | None => setCurrentVotingPower vm validatorsVotingPower
  end.

(** The loop of [HasQuorum]: [froms] are the sender addresses in the
    order the [range] visits them; an address that is a key of the map
    adds its power, any other one adds nothing. *)
Definition sumVotePower (vp : gmap string Z) (froms : list string) : Z :=
  foldl (fun messageVotePower from =>
           match vp !! from with
           | Some vote => big.Add messageVotePower vote
           | None => messageVotePower
           end)
        (big.NewInt 0) froms.

(** [HasQuorum] *)
Definition HasQuorum (vm : ValidatorManager) (sendersAddrs : gset string)
    : bool :=
  match vm.(validatorsVotingPower) with
  | None => false
  | Some vp =>
      let messageVotePower := sumVotePower vp (elements sendersAddrs) in
      big.Cmp messageVotePower vm.(quorumSize) >=? 0
  end.

(** The loop of [HasPrepareQuorum] over [msgs]: [None] when it returns
    from inside the loop, at a message sent by the proposer, and else
    the address set it has built. *)
Fixpoint scanPrepareMessages (proposerAddress : list byte)
    (msgs : list Message) (sendersAddressesMap : gset string)
    : option (gset string) :=
  match msgs with
  | [] => Some sendersAddressesMap
  | message :: rest =>
      if bytes.Equal message.(From) proposerAddress
      then None
      else scanPrepareMessages proposerAddress rest
             ({[ string_of_list_byte message.(From) ]} ∪ sendersAddressesMap)
  end.

(** [HasPrepareQuorum]: the answer and the entries logged by the call;
    [proposalMessage] is [None] for a nil pointer. *)
Definition HasPrepareQuorum (vm : ValidatorManager) (stateName : stateType)
    (proposalMessage : option Message) (msgs : list Message)
    : bool * list logEntry :=
  match proposalMessage with
  | None =>
      (false,
       if decide (stateName = prepare)
       then [ErrorEntry "HasPrepareQuorum - proposalMessage is not set"]
       else [])
  | Some proposal =>
      let proposerAddress := proposal.(From) in
      let sendersAddressesMap : gset string :=
        {[ string_of_list_byte proposerAddress ]} in
      match scanPrepareMessages proposerAddress msgs sendersAddressesMap with
      | None =>
          (false,
           [ErrorEntry
              "HasPrepareQuorum - proposer is among signers but it is not expected to be"])
      | Some senders => (HasQuorum vm senders, [])
      end
  end.

(** [convertMessageToAddressSet] *)
Definition convertMessageToAddressSet (messages : list Message) : gset string :=
  foldl (fun result x => {[ string_of_list_byte x.(From) ]} ∪ result)
        ∅ messages.

(** ** Calls on a manager *)

(** The calls a client can make on a manager once it is built.
    [SetCurrentVotingPower] stands for an [Init] whose backend answered
    with that map. *)
Inductive call : Type :=
  | CallInit (height : N)
  | CallSetCurrentVotingPower (weights : option (gmap string Z))
  | CallHasQuorum (sendersAddrs : gset string)
  | CallHasPrepareQuorum (stateName : stateType)
      (proposalMessage : option Message) (msgs : list Message).

(** The manager after a call; the two queries write no field. *)
Definition afterCall (vm : ValidatorManager) (c : call) : ValidatorManager :=
  match c with
  | CallInit height => (Init vm height).1
  | CallSetCurrentVotingPower weights => (setCurrentVotingPower vm weights).1
  | CallHasQuorum _ => vm
  | CallHasPrepareQuorum _ _ _ => vm
  end.

Definition afterCalls (vm : ValidatorManager) (cs : list call)
    : ValidatorManager :=
  foldl afterCall vm cs.

(** ** Reference definitions, following the specification's words *)

(** The voting power of a sender set: the sum of the stored powers of
    exactly those entries of the weight mapping whose address is in the
    set. *)
Definition votingPowerOfSenders (vp : gmap string Z) (S : gset string) : Z :=
  foldr Z.add 0 (map_to_list (filter (fun kv => kv.1 ∈ S) vp)).*2.

(** The power stored for an address, zero when there is none. *)
Definition powerAt (vp : gmap string Z) (from : string) : Z :=
  default 0 (vp !! from).

(** The total voting power of a weight mapping. *)
Definition totalPower (vp : gmap string Z) : Z :=
  foldr Z.add 0 (map_to_list vp).*2.

(** The sender set of a prepare-quorum query: the proposer's address
    together with the address of every prepare message. *)
Definition prepareSenders (proposal : Message) (msgs : list Message)
    : gset string :=
  {[ string_of_list_byte proposal.(From) ]} ∪
  list_to_set (string_of_list_byte <$> (From <$> msgs)).

(** The consistency of the stored pair: no weight mapping is stored, or
    the threshold is the quorum of the stored mapping's total power,
    which is positive. *)
Definition consistent (vm : ValidatorManager) : Prop :=
  match vm.(validatorsVotingPower) with
  | None => True
  | Some vp =>
      vm.(quorumSize) = calculateQuorum (totalPower vp) /\ 0 < totalPower vp
  end.

(** ** A small validator set

    Three validators of power one and a backend that serves them at
    every height but the first, where it serves weights that sum to
    zero; used to run the definitions. *)

Definition threeValidators : gmap string Z :=
  <["A" := 1]> (<["B" := 1]> (<["C" := 1]> ∅)).

Definition unevenValidators : gmap string Z :=
  <["A" := 10]> (<["B" := 1]> (<["C" := 1]> ∅)).

Definition zeroWeights : gmap string Z :=
  <["A" := 0]> (<["B" := 0]> ∅).

Definition sampleBackend : ValidatorBackend :=
  {| GetVotingPowers := fun height =>
       if (height =? 0)%N then (Some zeroWeights, None)
       else (Some threeValidators, None);
     GetMinerAddress := ("A", None) |}.

Definition freshManager : ValidatorManager :=
  {| quorumSize := 0;
     validatorsVotingPower := None;
     minerAddress := "A";
     backend := sampleBackend |}.

Definition sampleManager : ValidatorManager :=
  {| quorumSize := 3;
     validatorsVotingPower := Some threeValidators;
     minerAddress := "A";
     backend := sampleBackend |}.

(** Messages sent by the addresses "A", "B" and "C". *)
Definition msgA : Message := {| From := [Byte.x41] |}.
Definition msgB : Message := {| From := [Byte.x42] |}.
Definition msgC : Message := {| From := [Byte.x43] |}.

Definition unevenManager : ValidatorManager :=
  {| quorumSize := 9;
     validatorsVotingPower := Some unevenValidators;
     minerAddress := "A";
     backend := sampleBackend |}.

(** A backend that finds no miner address, and one that knows the
    miner but fails to serve the weights of height 7. *)
Definition minerlessBackend : ValidatorBackend :=
  {| GetVotingPowers := fun _ => (Some threeValidators, None);
     GetMinerAddress := ("", Some (backendError "no miner")) |}.

Definition flakyBackend : ValidatorBackend :=
  {| GetVotingPowers := fun height =>
       if (height =? 7)%N
       then (Some unevenValidators, Some (backendError "unavailable"))
       else (Some threeValidators, None);
     GetMinerAddress := ("A", None) |}.

Definition flakyManager : ValidatorManager :=
  {| quorumSize := 3;
     validatorsVotingPower := Some threeValidators;
     minerAddress := "A";
     backend := flakyBackend |}.

(** ** Managers that calls can produce *)

(** A manager is reachable when [NewValidatorManager] returned it or
    calls on such a manager led to it. *)
Definition reachable (vm : ValidatorManager) : Prop :=
  exists (b : ValidatorBackend) (vm0 : ValidatorManager) (cs : list call),
    (NewValidatorManager b).1 = Some vm0 /\ vm = afterCalls vm0 cs.

(** The key under which a message's sender enters an address set. *)
Definition senderKey (m : Message) : string :=
  string_of_list_byte m.(From).

(** ** Properties of the arithmetic *)

Lemma big_Cmp_le0 (x y : Z) : (big.Cmp x y <=? 0) = (x <=? y).
Proof.
  unfold big.Cmp. destruct (Z.compare_spec x y) as [E|L|G].
  - subst. symmetry. apply Z.leb_le. lia.
  - symmetry. apply Z.leb_le. lia.
  - symmetry. apply Z.leb_gt. lia.
Qed.

Lemma big_Cmp_ge0 (x y : Z) : (big.Cmp x y >=? 0) = (y <=? x).
Proof.
  unfold big.Cmp. rewrite Z.geb_leb.
  destruct (Z.compare_spec x y) as [E|L|G].
  - subst. symmetry. apply Z.leb_le. lia.
  - symmetry. apply Z.leb_gt. lia.
  - symmetry. apply Z.leb_le. lia.
Qed.

(** Division by a positive number rounds towards minus infinity. *)
Lemma big_Div_floor (x y : Z) : 0 < y -> big.Div x y = x / y.
Proof.
  intros Hy. unfold big.Div.
  pose proof (Z.quot_rem' x y) as Hqr.
  pose proof (Z.rem_bound_abs x y ltac:(lia)) as Hb.
  destruct (Z.ltb_spec (Z.rem x y) 0) as [Hneg|Hpos].
  - destruct (Z.ltb_spec y 0) as [?|_]; [lia|].
    apply (Z.div_unique x y _ (Z.rem x y + y)); lia.
  - apply (Z.div_unique x y _ (Z.rem x y)); lia.
Qed.

Lemma calculateQuorum_floor (T : Z) : calculateQuorum T = 2 * T / 3 + 1.
Proof.
  unfold calculateQuorum, big.Mul, big.Add, big.NewInt.
  rewrite big_Div_floor by lia. f_equal. f_equal. lia.
Qed.

(** C2: on a total [T >= 0], [calculateQuorum] is exactly
    [floor(2*T/3) + 1]: the quotient is the integer one, which on these
    inputs is also the quotient truncated towards zero, and the product
    [2*T] is the unbounded one. *)
Theorem calculateQuorum_spec (T : Z) :
  0 <= T ->
  calculateQuorum T = 2 * T / 3 + 1 /\
  calculateQuorum T = Z.quot (2 * T) 3 + 1 /\
  3 * (calculateQuorum T - 1) <= 2 * T < 3 * calculateQuorum T.
Proof.
  intros HT. rewrite calculateQuorum_floor.
  split; [done|]. split.
  - rewrite Z.quot_div_nonneg by lia. done.
  - pose proof (Z.div_mod (2 * T) 3 ltac:(lia)).
    pose proof (Z.mod_pos_bound (2 * T) 3 ltac:(lia)). lia.
Qed.

Lemma calculateQuorum_spec_witness :
  0 <= 12 /\
  (calculateQuorum 12 = 2 * 12 / 3 + 1 /\
   calculateQuorum 12 = Z.quot (2 * 12) 3 + 1 /\
   3 * (calculateQuorum 12 - 1) <= 2 * 12 < 3 * calculateQuorum 12).
Proof.
  split; [lia | apply (calculateQuorum_spec 12); lia].
Defined.

(** C8: for a total [T > 0] the threshold lies between 1 and [T]. *)
Theorem calculateQuorum_bounds (T : Z) :
  0 < T -> 1 <= calculateQuorum T <= T.
Proof.
  intros HT. rewrite calculateQuorum_floor.
  pose proof (Z.div_mod (2 * T) 3 ltac:(lia)).
  pose proof (Z.mod_pos_bound (2 * T) 3 ltac:(lia)). lia.
Qed.

Lemma calculateQuorum_bounds_witness :
  0 < 3 /\ 1 <= calculateQuorum 3 <= 3.
Proof.
  split; [lia|]. apply (calculateQuorum_bounds 3). lia.
Defined.

(** ** Sums computed by the loops *)

Section Sums.

Lemma foldl_add_shift {A : Type} (g : A -> Z) (acc : Z) (l : list A) :
  foldl (fun a x => a + g x) acc l = acc + foldr Z.add 0 (g <$> l).
Proof.
  revert acc. induction l as [|x l IH]; intros acc.
  - simpl. lia.
  - rewrite fmap_cons. simpl. rewrite IH. lia.
Qed.

Lemma Zsum_perm (l1 l2 : list Z) :
  l1 ≡ₚ l2 -> foldr Z.add 0 l1 = foldr Z.add 0 l2.
Proof.
  induction 1; simpl; lia.
Qed.

Lemma Zsum_app (l1 l2 : list Z) :
  foldr Z.add 0 (l1 ++ l2) = foldr Z.add 0 l1 + foldr Z.add 0 l2.
Proof.
  induction l1 as [|x l1 IH]; simpl; lia.
Qed.

Lemma Zsum_nonneg (l : list Z) :
  Forall (fun v => 0 <= v) l -> 0 <= foldr Z.add 0 l.
Proof.
  induction 1; simpl; lia.
Qed.

Lemma sumVotePower_sum (vp : gmap string Z) (froms : list string) :
  sumVotePower vp froms = foldr Z.add 0 (powerAt vp <$> froms).
Proof.
  unfold sumVotePower, big.NewInt.
  rewrite <- (Z.add_0_l (foldr _ _ _)), <- foldl_add_shift.
  generalize 0. induction froms as [|a l IH]; intros acc; simpl; [done|].
  rewrite IH. unfold powerAt, big.Add.
  destruct (vp !! a); simpl; f_equal; lia.
Qed.

Lemma sumVotingPowers_sum (entries : list (string * Z)) :
  sumVotingPowers entries = foldr Z.add 0 entries.*2.
Proof.
  unfold sumVotingPowers, big.NewInt, big.Add.
  rewrite (foldl_add_shift snd). lia.
Qed.

(** The order in which a [range] visits the senders does not change
    the sum. *)
Lemma sumVotePower_order (vp : gmap string Z) (l1 l2 : list string) :
  l1 ≡ₚ l2 -> sumVotePower vp l1 = sumVotePower vp l2.
Proof.
  intros Hp. rewrite !sumVotePower_sum.
  apply Zsum_perm. by apply fmap_Permutation.
Qed.

(** Nor does the order in which it visits the entries of the weight
    mapping. *)
Lemma sumVotingPowers_order (l1 l2 : list (string * Z)) :
  l1 ≡ₚ l2 -> sumVotingPowers l1 = sumVotingPowers l2.
Proof.
  intros Hp. rewrite !sumVotingPowers_sum.
  apply Zsum_perm. by apply fmap_Permutation.
Qed.

(** So the total is the same whichever way the map is enumerated. *)
Lemma calculateTotalVotingPower_order (vp : gmap string Z)
    (entries : list (string * Z)) :
  entries ≡ₚ map_to_list vp ->
  sumVotingPowers entries = calculateTotalVotingPower (Some vp).
Proof. apply sumVotingPowers_order. Qed.

Lemma calculateTotalVotingPower_Some (vp : gmap string Z) :
  calculateTotalVotingPower (Some vp) = totalPower vp.
Proof. apply sumVotingPowers_sum. Qed.

Lemma calculateTotalVotingPower_None :
  calculateTotalVotingPower None = 0.
Proof. reflexivity. Qed.

Lemma sumVotePower_disj_union (vp : gmap string Z) (X Y : gset string) :
  X ## Y ->
  sumVotePower vp (elements (X ∪ Y)) =
  sumVotePower vp (elements X) + sumVotePower vp (elements Y).
Proof.
  intros Hd.
  rewrite (sumVotePower_order vp _ _ (elements_disj_union X Y Hd)).
  rewrite !sumVotePower_sum, fmap_app. apply Zsum_app.
Qed.

Lemma sumVotePower_nonneg (vp : gmap string Z) (froms : list string) :
  map_Forall (fun _ v => 0 <= v) vp -> 0 <= sumVotePower vp froms.
Proof.
  intros Hvp. rewrite sumVotePower_sum. apply Zsum_nonneg.
  apply Forall_fmap, Forall_forall. intros a _. unfold powerAt. simpl.
  destruct (vp !! a) as [v|] eqn:E; simpl; [|lia].
  by apply (Hvp a v).
Qed.

(** Adding an address to the set adds, in the filtered mapping, the
    entry stored for it, if there is one. *)
Lemma filter_senders_add (vp : gmap string Z) (x : string) (X : gset string) :
  filter (fun kv => kv.1 ∈ {[x]} ∪ X) vp =
  match vp !! x with
  | Some v => <[x := v]> (filter (fun kv => kv.1 ∈ X) vp)
  | None => filter (fun kv => kv.1 ∈ X) vp
  end.
Proof.
  apply map_eq. intros i. apply option_eq. intros w.
  destruct (vp !! x) as [v|] eqn:Ex.
  - rewrite map_lookup_filter_Some. simpl.
    destruct (decide (i = x)) as [->|Hne].
    + rewrite lookup_insert_eq, Ex. split; [by intros [? _]|].
      intros [= ->]. split; [done|].
      apply elem_of_union_l, elem_of_singleton. done.
    + rewrite lookup_insert_ne by done.
      rewrite map_lookup_filter_Some. simpl.
      rewrite elem_of_union, elem_of_singleton. intuition congruence.
  - rewrite !map_lookup_filter_Some. simpl.
    split; [|intros [? ?]; split; [done|by apply elem_of_union_r]].
    intros [Hi Hin]. split; [done|].
    apply elem_of_union in Hin as [Hin|Hin]; [|done].
    apply elem_of_singleton in Hin. subst. congruence.
Qed.

Lemma filter_senders_none (vp : gmap string Z) (X : gset string) :
  X = ∅ -> filter (fun kv => kv.1 ∈ X) vp = ∅.
Proof.
  intros ->. apply map_eq. intros i. rewrite lookup_empty.
  apply map_lookup_filter_None. right. intros v _. simpl.
  apply not_elem_of_empty.
Qed.

(** The loop of [HasQuorum] computes the voting power of the set. *)
Lemma sumVotePower_spec (vp : gmap string Z) (S : gset string) :
  sumVotePower vp (elements S) = votingPowerOfSenders vp S.
Proof.
  induction S as [|x X Hx IH] using set_ind_L.
  - rewrite elements_empty. unfold votingPowerOfSenders.
    rewrite (filter_senders_none vp ∅ eq_refl), map_to_list_empty.
    reflexivity.
  - rewrite (sumVotePower_order vp _ _ (elements_union_singleton X x Hx)).
    rewrite sumVotePower_sum, fmap_cons. cbn [foldr].
    rewrite <- sumVotePower_sum, IH.
    unfold votingPowerOfSenders, powerAt. rewrite filter_senders_add.
    destruct (vp !! x) as [v|] eqn:Ex; simpl; [|done].
    symmetry. etrans.
    + apply Zsum_perm, fmap_Permutation, map_to_list_insert.
      apply map_lookup_filter_None. right. intros w _. done.
    + reflexivity.
Qed.

End Sums.

(** ** The quorum query *)

Section Quorum.

Implicit Types (vm : ValidatorManager) (vp : gmap string Z).
Implicit Types (S : gset string).

(** Only the addresses that are keys of the mapping count. *)
Lemma votingPowerOfSenders_known vp S :
  votingPowerOfSenders vp S = votingPowerOfSenders vp (S ∩ dom vp).
Proof.
  unfold votingPowerOfSenders. do 3 f_equal.
  apply map_eq. intros i. apply option_eq. intros v.
  rewrite !map_lookup_filter_Some. simpl.
  rewrite elem_of_intersection, elem_of_dom.
  split; [|tauto].
  intros [Hi Hin]. rewrite Hi. eauto.
Qed.

Lemma HasQuorum_unfold vm S :
  HasQuorum vm S =
  match vm.(validatorsVotingPower) with
  | None => false
  | Some vp => bool_decide (vm.(quorumSize) <= votingPowerOfSenders vp S)
  end.
Proof.
  unfold HasQuorum. destruct (validatorsVotingPower vm) as [vp|]; [|done].
  rewrite big_Cmp_ge0, sumVotePower_spec.
  destruct (Z.leb_spec (quorumSize vm) (votingPowerOfSenders vp S)).
  - by rewrite bool_decide_eq_true_2.
  - rewrite bool_decide_eq_false_2; [done|lia].
Qed.

(** The answer is the same whichever way the sender set is enumerated. *)
Lemma HasQuorum_order vm vp S (froms : list string) :
  vm.(validatorsVotingPower) = Some vp ->
  froms ≡ₚ elements S ->
  HasQuorum vm S = (big.Cmp (sumVotePower vp froms) vm.(quorumSize) >=? 0).
Proof.
  intros Hvp Hp. unfold HasQuorum. rewrite Hvp.
  by rewrite (sumVotePower_order vp _ _ Hp).
Qed.

(** C1: [HasQuorum] answers false while no weight mapping is stored;
    with a mapping stored it answers true exactly when the voting
    power of the senders is at least the stored threshold (equality
    is enough).  That voting power is the sum of the stored powers of
    the senders that are keys of the mapping: the other senders add
    nothing. *)
Theorem HasQuorum_spec vm S :
  HasQuorum vm S =
  match vm.(validatorsVotingPower) with
  | None => false
  | Some vp =>
      bool_decide (votingPowerOfSenders vp S >= vm.(quorumSize))
  end
  /\ forall vp,
       votingPowerOfSenders vp S =
       foldr Z.add 0 (powerAt vp <$> elements (S ∩ dom vp))
       /\ Forall (fun a => is_Some (vp !! a)) (elements (S ∩ dom vp)).
Proof.
  split.
  - rewrite HasQuorum_unfold.
    destruct (validatorsVotingPower vm) as [vp|]; [|done].
    apply bool_decide_ext. lia.
  - intros vp. split.
    + rewrite votingPowerOfSenders_known, <- sumVotePower_spec.
      apply sumVotePower_sum.
    + apply Forall_forall. intros a Ha.
      apply elem_of_elements, elem_of_intersection in Ha as [_ Ha].
      by apply elem_of_dom.
Qed.

(** C9: with a weight mapping stored whose powers are all
    non-negative, a quorum reached by a sender set is reached by
    every larger set. *)
Theorem HasQuorum_monotone vm vp S S' :
  vm.(validatorsVotingPower) = Some vp ->
  map_Forall (fun _ v => 0 <= v) vp ->
  S ⊆ S' ->
  HasQuorum vm S = true ->
  HasQuorum vm S' = true.
Proof.
  intros Hvp Hnn Hsub.
  unfold HasQuorum. rewrite Hvp, !big_Cmp_ge0, !Z.leb_le.
  intros Hq.
  assert (HS' : S' = S ∪ (S' ∖ S)).
  { apply set_eq. intros a. rewrite elem_of_union, elem_of_difference.
    split; [|intros [?|[? _]]; [by apply Hsub|done]].
    intros Ha. destruct (decide (a ∈ S)); [by left|by right]. }
  rewrite HS', sumVotePower_disj_union.
  - pose proof (sumVotePower_nonneg vp (elements (S' ∖ S)) Hnn). lia.
  - intros a Ha1 Ha2. apply elem_of_difference in Ha2 as [_ Ha2]. done.
Qed.

Lemma HasQuorum_monotone_witness :
  sampleManager.(validatorsVotingPower) = Some threeValidators
  /\ map_Forall (fun _ v => 0 <= v) threeValidators
  /\ ({["A"; "B"; "C"]} : gset string) ⊆ {["A"; "B"; "C"; "Z"]}
  /\ HasQuorum sampleManager {["A"; "B"; "C"]} = true
  /\ HasQuorum sampleManager {["A"; "B"; "C"; "Z"]} = true.
Proof.
  assert (Hnn : map_Forall (fun _ v => 0 <= v) threeValidators)
    by compute_done.
  assert (Hsub : ({["A"; "B"; "C"]} : gset string) ⊆ {["A"; "B"; "C"; "Z"]})
    by compute_done.
  assert (Hq : HasQuorum sampleManager {["A"; "B"; "C"]} = true)
    by (vm_compute; reflexivity).
  split; [reflexivity|]. split; [exact Hnn|].
  split; [exact Hsub|]. split; [exact Hq|].
  exact (HasQuorum_monotone sampleManager threeValidators
           {["A"; "B"; "C"]} {["A"; "B"; "C"; "Z"]} eq_refl Hnn Hsub Hq).
Defined.

End Quorum.

(** ** Installing a weight mapping *)

Section Initialisation.

Implicit Types (vm : ValidatorManager) (m : option (gmap string Z)).

Lemma calculateTotalVotingPower_total m :
  calculateTotalVotingPower m = totalPower (default ∅ m).
Proof.
  destruct m as [vp|]; simpl.
  - apply calculateTotalVotingPower_Some.
  - unfold totalPower. by rewrite map_to_list_empty.
Qed.

Lemma setCurrentVotingPower_reject vm m :
  totalPower (default ∅ m) <= 0 ->
  setCurrentVotingPower vm m = (vm, Some errVotingPowerNotCorrect).
Proof.
  intros Hle. unfold setCurrentVotingPower.
  rewrite big_Cmp_le0, calculateTotalVotingPower_total.
  unfold big.NewInt. by rewrite (proj2 (Z.leb_le _ _) Hle).
Qed.

Lemma setCurrentVotingPower_accept vm m :
  0 < totalPower (default ∅ m) ->
  setCurrentVotingPower vm m =
  ({| quorumSize := calculateQuorum (totalPower (default ∅ m));
      validatorsVotingPower := m;
      minerAddress := vm.(minerAddress);
      backend := vm.(backend) |}, None).
Proof.
  intros Hlt. unfold setCurrentVotingPower.
  rewrite big_Cmp_le0, calculateTotalVotingPower_total.
  unfold big.NewInt. by rewrite (proj2 (Z.leb_gt _ _) Hlt).
Qed.

(** The empty mapping and the nil one have total power zero. *)
Lemma totalPower_empty :
  totalPower ∅ = 0 /\ totalPower (default ∅ None) = 0.
Proof. unfold totalPower. simpl. by rewrite map_to_list_empty. Qed.

(** C3: a weight mapping whose powers sum to zero or less (the empty
    and the nil mapping among them) is refused with
    [errVotingPowerNotCorrect], by [setCurrentVotingPower] and by an
    [Init] whose backend serves it; the manager is left as it was, so
    every later [HasQuorum] answers as before the call. *)
Theorem init_nonpositive_total_rejected vm m (height : N) :
  totalPower (default ∅ m) <= 0 ->
  setCurrentVotingPower vm m = (vm, Some errVotingPowerNotCorrect)
  /\ (GetVotingPowers vm.(backend) height = (m, None) ->
      Init vm height = (vm, Some errVotingPowerNotCorrect))
  /\ (forall S : gset string,
        HasQuorum (setCurrentVotingPower vm m).1 S = HasQuorum vm S).
Proof.
  intros Hle. pose proof (setCurrentVotingPower_reject vm m Hle) as Hset.
  repeat split.
  - done.
  - intros Hb. unfold Init. by rewrite Hb.
  - intros S. by rewrite Hset.
Qed.

Lemma init_nonpositive_total_rejected_witness :
  totalPower (default ∅ (Some zeroWeights)) <= 0
  /\ Init sampleManager 0 = (sampleManager, Some errVotingPowerNotCorrect)
  /\ HasQuorum (Init sampleManager 0).1 {["A"; "B"; "C"]} = true.
Proof.
  assert (Hle : totalPower (default ∅ (Some zeroWeights)) <= 0)
    by (vm_compute; discriminate).
  destruct (init_nonpositive_total_rejected sampleManager
              (Some zeroWeights) 0 Hle) as (_ & HInit & _).
  split; [exact Hle|]. split.
  - apply HInit. reflexivity.
  - rewrite (HInit eq_refl). vm_compute. reflexivity.
Defined.

Lemma setCurrentVotingPower_consistent vm m :
  consistent vm -> consistent (setCurrentVotingPower vm m).1.
Proof.
  intros Hc.
  destruct (Z.le_gt_cases (totalPower (default ∅ m)) 0) as [Hle|Hlt].
  - by rewrite setCurrentVotingPower_reject.
  - rewrite setCurrentVotingPower_accept by done.
    unfold consistent. simpl. destruct m as [vp|]; simpl in *; done.
Qed.

Lemma Init_consistent vm (height : N) :
  consistent vm -> consistent (Init vm height).1.
Proof.
  intros Hc. unfold Init.
  destruct (GetVotingPowers (backend vm) height) as [m [e|]]; [done|].
  by apply setCurrentVotingPower_consistent.
Qed.

Lemma afterCall_consistent vm (c : call) :
  consistent vm -> consistent (afterCall vm c).
Proof.
  intros Hc. destruct c; simpl;
    [by apply Init_consistent
    |by apply setCurrentVotingPower_consistent
    |done
    |done].
Qed.

Lemma NewValidatorManager_consistent (b : ValidatorBackend) vm :
  (NewValidatorManager b).1 = Some vm -> consistent vm.
Proof.
  unfold NewValidatorManager.
  destruct (GetMinerAddress b) as [a [e|]]; simpl; [done|].
  intros [= <-]. exact I.
Qed.

(** C7: in a manager built by [NewValidatorManager] and then taken
    through any sequence of calls, no weight mapping is stored, or
    the stored threshold is [calculateQuorum] of the total power of
    the stored mapping and that total is positive. *)
Theorem reachable_consistent (b : ValidatorBackend) vm (cs : list call) :
  (NewValidatorManager b).1 = Some vm ->
  match (afterCalls vm cs).(validatorsVotingPower) with
  | None => True
  | Some vp =>
      (afterCalls vm cs).(quorumSize) = calculateQuorum (totalPower vp)
      /\ 0 < totalPower vp
  end.
Proof.
  intros Hnew. apply NewValidatorManager_consistent in Hnew.
  change (consistent (afterCalls vm cs)).
  revert vm Hnew. unfold afterCalls.
  induction cs as [|c cs IH]; intros vm Hc; simpl; [done|].
  by apply IH, afterCall_consistent.
Qed.

Lemma reachable_consistent_witness :
  (NewValidatorManager sampleBackend).1 = Some freshManager
  /\ afterCalls freshManager
       [CallInit 1; CallHasQuorum {["A"]}; CallInit 0] = sampleManager
  /\ sampleManager.(quorumSize) = calculateQuorum (totalPower threeValidators)
  /\ 0 < totalPower threeValidators.
Proof.
  split; [reflexivity|]. split; [vm_compute; reflexivity|].
  apply (reachable_consistent sampleBackend freshManager
           [CallInit 1; CallHasQuorum {["A"]}; CallInit 0]).
  reflexivity.
Defined.

End Initialisation.

(** ** The prepare-quorum policy *)

Section PrepareQuorum.

Implicit Types (vm : ValidatorManager) (p : Message) (msgs : list Message).

Lemma bytes_Equal_eq (a b : list byte) : bytes.Equal a b = true <-> a = b.
Proof.
  revert b. induction a as [|x a IH]; intros [|y b]; simpl; try done.
  rewrite andb_true_iff, IH. split.
  - intros [Hxy ->]. by rewrite (Byte.byte_dec_bl _ _ Hxy).
  - intros [= -> ->]. split; [by apply Byte.byte_dec_lb|done].
Qed.

Lemma bytes_Equal_neq (a b : list byte) : bytes.Equal a b = false <-> a ≠ b.
Proof.
  rewrite <- bytes_Equal_eq. destruct (bytes.Equal a b); split; congruence.
Qed.

(** [string(b)] keeps the bytes: different slices give different
    keys. *)
Lemma string_of_list_byte_inj (a b : list byte) :
  string_of_list_byte a = string_of_list_byte b -> a = b.
Proof.
  intros H. apply (f_equal list_byte_of_string) in H.
  by rewrite !list_byte_of_string_of_list_byte in H.
Qed.

(** The scan stops at the first message of the proposer. *)
Lemma scanPrepareMessages_stops (proposer : list byte) msgs (acc : gset string) :
  Exists (fun m => m.(From) = proposer) msgs ->
  scanPrepareMessages proposer msgs acc = None.
Proof.
  intros Hex. revert acc.
  induction Hex as [m rest Hm|m rest _ IH]; intros acc; simpl.
  - by rewrite (proj2 (bytes_Equal_eq _ _) Hm).
  - destruct (bytes.Equal (From m) proposer); [done|apply IH].
Qed.

(** Without such a message it adds every sender to the set. *)
Lemma scanPrepareMessages_collects (proposer : list byte) msgs (acc : gset string) :
  Forall (fun m => m.(From) ≠ proposer) msgs ->
  scanPrepareMessages proposer msgs acc =
  Some (acc ∪ list_to_set (string_of_list_byte <$> (From <$> msgs))).
Proof.
  intros Hall. revert acc.
  induction Hall as [|m rest Hm _ IH]; intros acc; simpl.
  - f_equal. by rewrite (right_id_L ∅ (∪)).
  - rewrite (proj2 (bytes_Equal_neq _ _) Hm), IH. f_equal.
    rewrite (comm_L (∪) {[ _ ]} acc). by rewrite (assoc_L (∪)).
Qed.

(** C4: when some prepare message carries the proposer's address,
    [HasPrepareQuorum] answers false (and logs the violation),
    whatever the phase, the other messages and the stored weights
    are. *)
Theorem HasPrepareQuorum_proposer_among_signers
    vm (stateName : stateType) p msgs :
  (exists m, m ∈ msgs /\ m.(From) = p.(From)) ->
  (HasPrepareQuorum vm stateName (Some p) msgs).1 = false
  /\ length (HasPrepareQuorum vm stateName (Some p) msgs).2 = 1%nat.
Proof.
  intros Hex. apply Exists_exists in Hex.
  unfold HasPrepareQuorum.
  by rewrite (scanPrepareMessages_stops _ _ _ Hex).
Qed.

Lemma HasPrepareQuorum_proposer_among_signers_witness :
  (exists m, m ∈ [msgB; msgA; msgC] /\ m.(From) = msgA.(From))
  /\ HasQuorum sampleManager {["B"; "C"; "A"]} = true
  /\ (HasPrepareQuorum sampleManager prepare (Some msgA)
        [msgB; msgA; msgC]).1 = false.
Proof.
  assert (Hex : exists m, m ∈ [msgB; msgA; msgC] /\ m.(From) = msgA.(From)).
  { exists msgA. split; [|reflexivity].
    apply list_elem_of_further, list_elem_of_here. }
  split; [exact Hex|]. split; [vm_compute; reflexivity|].
  apply (HasPrepareQuorum_proposer_among_signers
           sampleManager prepare msgA [msgB; msgA; msgC] Hex).
Defined.

(** C5: without a proposal [HasPrepareQuorum] answers false; it logs
    one error entry in the prepare phase and nothing in any other
    phase. *)
Theorem HasPrepareQuorum_no_proposal vm (stateName : stateType) msgs :
  (HasPrepareQuorum vm stateName None msgs).1 = false
  /\ length (HasPrepareQuorum vm stateName None msgs).2 =
     (if decide (stateName = prepare) then 1%nat else 0%nat)
  /\ Forall (fun e => exists msg, e = ErrorEntry msg)
       (HasPrepareQuorum vm stateName None msgs).2.
Proof.
  unfold HasPrepareQuorum. simpl.
  destruct (decide (stateName = prepare)); simpl.
  - repeat split. apply Forall_cons. split; [eauto|apply Forall_nil_2].
  - repeat split. apply Forall_nil_2.
Qed.

(** C6: when no prepare message carries the proposer's address,
    [HasPrepareQuorum] is [HasQuorum] on the set made of the
    proposer's address and of the address of every prepare message,
    each taken once; nothing is logged. *)
Theorem HasPrepareQuorum_delegates vm (stateName : stateType) p msgs :
  (forall m, m ∈ msgs -> m.(From) ≠ p.(From)) ->
  HasPrepareQuorum vm stateName (Some p) msgs =
  (HasQuorum vm (prepareSenders p msgs), []).
Proof.
  intros Hall. apply Forall_forall in Hall.
  unfold HasPrepareQuorum.
  by rewrite (scanPrepareMessages_collects _ _ _ Hall).
Qed.

Lemma HasPrepareQuorum_delegates_witness :
  (forall m, m ∈ [msgB; msgC; msgB] -> m.(From) ≠ msgA.(From))
  /\ prepareSenders msgA [msgB; msgC; msgB] = {["A"; "B"; "C"]}
  /\ HasPrepareQuorum sampleManager prepare (Some msgA) [msgB; msgC; msgB] =
     (HasQuorum sampleManager (prepareSenders msgA [msgB; msgC; msgB]), []).
Proof.
  assert (Hall : forall m, m ∈ [msgB; msgC; msgB] -> m.(From) ≠ msgA.(From)).
  { intros m Hm. apply Forall_forall with (x := m) (l := [msgB; msgC; msgB]);
      [|exact Hm].
    repeat (apply Forall_cons; split; [discriminate|]). apply Forall_nil_2. }
  split; [exact Hall|]. split; [vm_compute; reflexivity|].
  apply (HasPrepareQuorum_delegates sampleManager prepare msgA
           [msgB; msgC; msgB] Hall).
Defined.

End PrepareQuorum.

(** ** More on the quorum arithmetic *)

Section QuorumArithmetic.

(** X1: [calculateQuorum] rounds towards minus infinity on every
    integer, the negative ones included: the result is the least
    integer above two thirds of the total.  It is the truncated
    quotient plus one exactly when the total is non-negative or the
    division is exact. *)
Theorem calculateQuorum_every_integer (T : Z) :
  calculateQuorum T = 2 * T / 3 + 1
  /\ 3 * (calculateQuorum T - 1) <= 2 * T < 3 * calculateQuorum T
  /\ (calculateQuorum T = Z.quot (2 * T) 3 + 1 <->
      0 <= T \/ (2 * T) mod 3 = 0).
Proof.
  rewrite calculateQuorum_floor.
  pose proof (Z.div_mod (2 * T) 3 ltac:(lia)) as Hdm.
  pose proof (Z.mod_pos_bound (2 * T) 3 ltac:(lia)) as Hmb.
  split; [done|]. split; [lia|].
  pose proof (Z.quot_rem' (2 * T) 3) as Hqr.
  pose proof (Z.rem_bound_abs (2 * T) 3 ltac:(lia)) as Hrb.
  destruct (Z.le_gt_cases 0 T) as [Hpos|Hneg].
  - pose proof (Z.rem_nonneg (2 * T) 3 ltac:(lia) ltac:(lia)). lia.
  - pose proof (Z.rem_nonpos (2 * T) 3 ltac:(lia) ltac:(lia)). lia.
Qed.

(** X2: a larger total never gives a smaller threshold, and the
    threshold grows by no more than the total does. *)
Theorem calculateQuorum_monotone (T T' : Z) :
  T <= T' ->
  calculateQuorum T <= calculateQuorum T' <= calculateQuorum T + (T' - T).
Proof.
  intros Hle. rewrite !calculateQuorum_floor.
  pose proof (Z.div_mod (2 * T) 3 ltac:(lia)).
  pose proof (Z.mod_pos_bound (2 * T) 3 ltac:(lia)).
  pose proof (Z.div_mod (2 * T') 3 ltac:(lia)).
  pose proof (Z.mod_pos_bound (2 * T') 3 ltac:(lia)).
  lia.
Qed.

Lemma calculateQuorum_monotone_witness :
  4 <= 7
  /\ calculateQuorum 4 <= calculateQuorum 7 <= calculateQuorum 4 + (7 - 4).
Proof.
  split; [lia | apply (calculateQuorum_monotone 4 7); lia].
Defined.

End QuorumArithmetic.

(** ** The total power and the power of a sender set *)

Section TotalPower.

Implicit Types (vp : gmap string Z) (S : gset string).

Lemma totalPower_delete vp (k : string) :
  totalPower (delete k vp) = totalPower vp - powerAt vp k.
Proof.
  unfold totalPower, powerAt.
  destruct (vp !! k) as [w|] eqn:Ek; simpl.
  - rewrite <- (Zsum_perm _ _
      (fmap_Permutation snd _ _ (map_to_list_delete vp k w Ek))).
    rewrite fmap_cons. simpl. lia.
  - rewrite delete_id by done. lia.
Qed.

Lemma totalPower_insert vp (k : string) (v : Z) :
  totalPower (<[k := v]> vp) = totalPower vp - powerAt vp k + v.
Proof.
  rewrite <- totalPower_delete, <- (insert_delete_eq vp).
  unfold totalPower.
  rewrite (Zsum_perm _ _
    (fmap_Permutation snd _ _
       (map_to_list_insert (delete k vp) k v (lookup_delete_eq vp k)))).
  rewrite fmap_cons. simpl. lia.
Qed.

Lemma votingPowerOfSenders_dom vp :
  votingPowerOfSenders vp (dom vp) = totalPower vp.
Proof.
  unfold votingPowerOfSenders, totalPower. do 3 f_equal.
  apply map_filter_id. intros i x Hi. simpl.
  apply elem_of_dom. eauto.
Qed.

Lemma votingPowerOfSenders_union_inter vp S1 S2 :
  votingPowerOfSenders vp S1 + votingPowerOfSenders vp S2 =
  votingPowerOfSenders vp (S1 ∪ S2) + votingPowerOfSenders vp (S1 ∩ S2).
Proof.
  rewrite <- !sumVotePower_spec.
  assert (H1 : S1 = (S1 ∩ S2) ∪ (S1 ∖ S2)).
  { apply set_eq. intros a.
    rewrite elem_of_union, elem_of_intersection, elem_of_difference.
    destruct (decide (a ∈ S2)); tauto. }
  assert (HU : S1 ∪ S2 = S2 ∪ (S1 ∖ S2)).
  { apply set_eq. intros a.
    rewrite !elem_of_union, elem_of_difference.
    destruct (decide (a ∈ S2)); tauto. }
  rewrite HU, H1 at 1.
  rewrite !sumVotePower_disj_union; [lia| |].
  - intros a Ha Hb. apply elem_of_difference in Hb. tauto.
  - intros a Ha Hb. apply elem_of_intersection in Ha.
    apply elem_of_difference in Hb. tauto.
Qed.

Lemma votingPowerOfSenders_nonneg vp S :
  map_Forall (fun _ v => 0 <= v) vp -> 0 <= votingPowerOfSenders vp S.
Proof.
  intros Hnn. rewrite <- sumVotePower_spec. by apply sumVotePower_nonneg.
Qed.

Lemma votingPowerOfSenders_le_total vp S :
  map_Forall (fun _ v => 0 <= v) vp ->
  votingPowerOfSenders vp S <= totalPower vp.
Proof.
  intros Hnn.
  rewrite (votingPowerOfSenders_known vp S), <- votingPowerOfSenders_dom.
  assert (Hd : dom vp = (S ∩ dom vp) ∪ (dom vp ∖ S)).
  { apply set_eq. intros a.
    rewrite elem_of_union, elem_of_intersection, elem_of_difference.
    destruct (decide (a ∈ S)); tauto. }
  rewrite Hd at 2. rewrite <- !sumVotePower_spec, sumVotePower_disj_union.
  - pose proof (sumVotePower_nonneg vp (elements (dom vp ∖ S)) Hnn). lia.
  - intros a Ha Hb. apply elem_of_intersection in Ha.
    apply elem_of_difference in Hb. tauto.
Qed.

(** A positive sum has a positive term. *)
Lemma Zsum_pos_term (l : list Z) :
  0 < foldr Z.add 0 l -> exists x, x ∈ l /\ 0 < x.
Proof.
  induction l as [|x l IH]; simpl; [lia|].
  intros Hs. destruct (Z.lt_ge_cases 0 x) as [Hx|Hx].
  - exists x. split; [apply list_elem_of_here|done].
  - destruct IH as (y & Hy & Hpos); [lia|].
    exists y. split; [by apply list_elem_of_further|done].
Qed.

(** X3: [calculateTotalVotingPower] is zero on the nil map and on the
    empty one, and setting the power of a validator changes the total
    by the difference between the new power and the one it replaces
    (zero when the validator is new). *)
Theorem calculateTotalVotingPower_insert vp (k : string) (v : Z) :
  calculateTotalVotingPower None = 0
  /\ calculateTotalVotingPower (Some ∅) = 0
  /\ calculateTotalVotingPower (Some (<[k := v]> vp)) =
     calculateTotalVotingPower (Some vp) - powerAt vp k + v
  /\ calculateTotalVotingPower (Some (delete k vp)) =
     calculateTotalVotingPower (Some vp) - powerAt vp k.
Proof.
  rewrite !calculateTotalVotingPower_Some.
  split; [reflexivity|]. split.
  - unfold totalPower. by rewrite map_to_list_empty.
  - split; [apply totalPower_insert|apply totalPower_delete].
Qed.

(** X4: run on all the validators of the weight mapping, the loop of
    [HasQuorum] adds up to what [calculateTotalVotingPower] returns,
    also when further addresses are among the senders. *)
Theorem sumVotePower_all_validators vp S :
  sumVotePower vp (elements (dom vp)) = calculateTotalVotingPower (Some vp)
  /\ sumVotePower vp (elements (dom vp ∪ S)) =
     calculateTotalVotingPower (Some vp).
Proof.
  rewrite calculateTotalVotingPower_Some, !sumVotePower_spec.
  split; [apply votingPowerOfSenders_dom|].
  rewrite votingPowerOfSenders_known.
  replace ((dom vp ∪ S) ∩ dom vp) with (dom vp).
  - apply votingPowerOfSenders_dom.
  - apply set_eq. intros a. rewrite elem_of_intersection, elem_of_union. tauto.
Qed.

(** X5: when no stored power is negative, the power the loop of
    [HasQuorum] finds for a sender set lies between zero and the total
    voting power. *)
Theorem sumVotePower_bounded vp S :
  map_Forall (fun _ v => 0 <= v) vp ->
  0 <= sumVotePower vp (elements S) <= calculateTotalVotingPower (Some vp).
Proof.
  intros Hnn. rewrite calculateTotalVotingPower_Some, sumVotePower_spec.
  split.
  - by apply votingPowerOfSenders_nonneg.
  - by apply votingPowerOfSenders_le_total.
Qed.

Lemma sumVotePower_bounded_witness :
  map_Forall (fun _ v => 0 <= v) unevenValidators
  /\ 0 <= sumVotePower unevenValidators (elements ({["A"; "Z"]} : gset string))
       <= calculateTotalVotingPower (Some unevenValidators).
Proof.
  assert (Hnn : map_Forall (fun _ v => 0 <= v) unevenValidators)
    by compute_done.
  split; [exact Hnn|].
  exact (sumVotePower_bounded unevenValidators {["A"; "Z"]} Hnn).
Defined.

End TotalPower.

(** ** Quorums in a reachable manager *)

Section ReachableQuorum.

Implicit Types (vm : ValidatorManager) (vp : gmap string Z).
Implicit Types (S : gset string).

Lemma afterCalls_consistent vm (cs : list call) :
  consistent vm -> consistent (afterCalls vm cs).
Proof.
  unfold afterCalls. revert vm.
  induction cs as [|c cs IH]; intros vm Hc; simpl; [done|].
  by apply IH, afterCall_consistent.
Qed.

Lemma reachable_stored vm vp :
  reachable vm ->
  vm.(validatorsVotingPower) = Some vp ->
  vm.(quorumSize) = calculateQuorum (totalPower vp) /\ 0 < totalPower vp.
Proof.
  intros (b & vm0 & cs & Hnew & ->) Hvp.
  pose proof (afterCalls_consistent vm0 cs
                (NewValidatorManager_consistent b vm0 Hnew)) as Hc.
  unfold consistent in Hc. by rewrite Hvp in Hc.
Qed.

Lemma reachable_sampleManager : reachable sampleManager.
Proof.
  exists sampleBackend, freshManager, [CallInit 1].
  split; [reflexivity|]. vm_compute. reflexivity.
Defined.

Lemma reachable_unevenManager : reachable unevenManager.
Proof.
  exists sampleBackend, freshManager,
    [CallSetCurrentVotingPower (Some unevenValidators)].
  split; [reflexivity|]. vm_compute. reflexivity.
Defined.

(** X6: senders that are not keys of the stored weight mapping do not
    change the answer of [HasQuorum]. *)
Theorem HasQuorum_unknown_senders vm S (U : gset string) :
  U ## dom (default ∅ vm.(validatorsVotingPower)) ->
  HasQuorum vm (S ∪ U) = HasQuorum vm S.
Proof.
  intros Hd. rewrite !HasQuorum_unfold.
  destruct (validatorsVotingPower vm) as [vp|]; simpl in *; [|done].
  rewrite (votingPowerOfSenders_known vp (S ∪ U)).
  rewrite (votingPowerOfSenders_known vp S).
  replace ((S ∪ U) ∩ dom vp) with (S ∩ dom vp); [done|].
  apply set_eq. intros a. rewrite !elem_of_intersection, elem_of_union.
  split; [tauto|]. intros [[?|Ha] Hb]; [done|]. by destruct (Hd a).
Qed.

Lemma HasQuorum_unknown_senders_witness :
  ({["Y"; "Z"]} : gset string)
    ## dom (default ∅ unevenManager.(validatorsVotingPower))
  /\ HasQuorum unevenManager ({["B"; "C"]} ∪ {["Y"; "Z"]}) =
     HasQuorum unevenManager {["B"; "C"]}.
Proof.
  assert (Hd : ({["Y"; "Z"]} : gset string)
                 ## dom (default ∅ unevenManager.(validatorsVotingPower)))
    by compute_done.
  split; [exact Hd|].
  exact (HasQuorum_unknown_senders unevenManager {["B"; "C"]} {["Y"; "Z"]} Hd).
Defined.

(** X7: in a reachable manager that stores a weight mapping,
    [HasQuorum] answers true exactly when the senders hold strictly
    more than two thirds of the total voting power. *)
Theorem HasQuorum_two_thirds vm vp S :
  reachable vm ->
  vm.(validatorsVotingPower) = Some vp ->
  HasQuorum vm S = true <->
  2 * totalPower vp < 3 * votingPowerOfSenders vp S.
Proof.
  intros Hr Hvp. destruct (reachable_stored vm vp Hr Hvp) as [Hq HT].
  rewrite HasQuorum_unfold, Hvp, bool_decide_eq_true, Hq.
  rewrite calculateQuorum_floor.
  pose proof (Z.div_mod (2 * totalPower vp) 3 ltac:(lia)).
  pose proof (Z.mod_pos_bound (2 * totalPower vp) 3 ltac:(lia)).
  lia.
Qed.

Lemma HasQuorum_two_thirds_witness :
  reachable unevenManager
  /\ unevenManager.(validatorsVotingPower) = Some unevenValidators
  /\ (HasQuorum unevenManager {["A"]} = true <->
      2 * totalPower unevenValidators <
      3 * votingPowerOfSenders unevenValidators {["A"]}).
Proof.
  split; [exact reachable_unevenManager|]. split; [reflexivity|].
  exact (HasQuorum_two_thirds unevenManager unevenValidators {["A"]}
           reachable_unevenManager eq_refl).
Defined.

(** X8: a reachable manager never finds a quorum in the empty sender
    set, and once it stores a weight mapping it finds one in every
    set that holds all the validators of the mapping. *)
Theorem HasQuorum_empty_and_full vm S :
  reachable vm ->
  HasQuorum vm ∅ = false
  /\ forall vp, vm.(validatorsVotingPower) = Some vp ->
       HasQuorum vm (dom vp ∪ S) = true.
Proof.
  intros Hr. split.
  - rewrite HasQuorum_unfold.
    destruct (validatorsVotingPower vm) as [vp|] eqn:Hvp; [|done].
    destruct (reachable_stored vm vp Hr Hvp) as [Hq HT].
    apply bool_decide_eq_false. rewrite Hq.
    rewrite <- sumVotePower_spec, elements_empty.
    pose proof (calculateQuorum_floor (totalPower vp)) as Hf.
    pose proof (Z.div_pos (2 * totalPower vp) 3 ltac:(lia) ltac:(lia)).
    unfold sumVotePower, big.NewInt. simpl. lia.
  - intros vp Hvp.
    destruct (reachable_stored vm vp Hr Hvp) as [Hq HT].
    rewrite HasQuorum_unfold, Hvp. apply bool_decide_eq_true. rewrite Hq.
    rewrite votingPowerOfSenders_known.
    replace ((dom vp ∪ S) ∩ dom vp) with (dom vp).
    + rewrite votingPowerOfSenders_dom, calculateQuorum_floor.
      pose proof (Z.div_mod (2 * totalPower vp) 3 ltac:(lia)).
      pose proof (Z.mod_pos_bound (2 * totalPower vp) 3 ltac:(lia)).
      lia.
    + apply set_eq. intros a.
      rewrite elem_of_intersection, elem_of_union. tauto.
Qed.

Lemma HasQuorum_empty_and_full_witness :
  reachable sampleManager
  /\ HasQuorum sampleManager ∅ = false
  /\ HasQuorum sampleManager (dom threeValidators ∪ {["Z"]}) = true.
Proof.
  split; [exact reachable_sampleManager|].
  destruct (HasQuorum_empty_and_full sampleManager {["Z"]}
              reachable_sampleManager) as [He Hf].
  split; [exact He|]. apply Hf. reflexivity.
Defined.

(** X9: in a reachable manager whose stored powers are not negative,
    two sender sets that both have a quorum share strictly more than a
    third of the total voting power, hence share a validator of
    positive power. *)
Theorem HasQuorum_intersection vm vp S1 S2 :
  reachable vm ->
  vm.(validatorsVotingPower) = Some vp ->
  map_Forall (fun _ v => 0 <= v) vp ->
  HasQuorum vm S1 = true ->
  HasQuorum vm S2 = true ->
  totalPower vp < 3 * votingPowerOfSenders vp (S1 ∩ S2)
  /\ exists (a : string) (v : Z),
       a ∈ S1 ∩ S2 /\ vp !! a = Some v /\ 0 < v.
Proof.
  intros Hr Hvp Hnn H1 H2.
  destruct (reachable_stored vm vp Hr Hvp) as [Hq HT].
  rewrite HasQuorum_unfold, Hvp, bool_decide_eq_true, Hq in H1, H2.
  rewrite calculateQuorum_floor in H1, H2.
  pose proof (Z.div_mod (2 * totalPower vp) 3 ltac:(lia)).
  pose proof (Z.mod_pos_bound (2 * totalPower vp) 3 ltac:(lia)).
  pose proof (votingPowerOfSenders_union_inter vp S1 S2) as Hui.
  pose proof (votingPowerOfSenders_le_total vp (S1 ∪ S2) Hnn) as Hle.
  assert (Hov : totalPower vp < 3 * votingPowerOfSenders vp (S1 ∩ S2)) by lia.
  split; [exact Hov|].
  assert (Hpos : 0 < foldr Z.add 0 (powerAt vp <$> elements (S1 ∩ S2))).
  { rewrite <- sumVotePower_sum, sumVotePower_spec. lia. }
  apply Zsum_pos_term in Hpos as (x & Hx & Hxpos).
  apply list_elem_of_fmap in Hx as (a & -> & Ha).
  apply elem_of_elements in Ha.
  unfold powerAt in Hxpos.
  destruct (vp !! a) as [v|] eqn:Ea; simpl in Hxpos; [|lia].
  exists a, v. done.
Qed.

Lemma HasQuorum_intersection_witness :
  reachable unevenManager
  /\ map_Forall (fun _ v => 0 <= v) unevenValidators
  /\ HasQuorum unevenManager {["A"; "B"]} = true
  /\ HasQuorum unevenManager {["A"; "C"]} = true
  /\ totalPower unevenValidators <
     3 * votingPowerOfSenders unevenValidators ({["A"; "B"]} ∩ {["A"; "C"]}).
Proof.
  assert (Hnn : map_Forall (fun _ v => 0 <= v) unevenValidators)
    by compute_done.
  assert (H1 : HasQuorum unevenManager {["A"; "B"]} = true)
    by (vm_compute; reflexivity).
  assert (H2 : HasQuorum unevenManager {["A"; "C"]} = true)
    by (vm_compute; reflexivity).
  split; [exact reachable_unevenManager|]. split; [exact Hnn|].
  split; [exact H1|]. split; [exact H2|].
  exact (proj1 (HasQuorum_intersection unevenManager unevenValidators
                  {["A"; "B"]} {["A"; "C"]}
                  reachable_unevenManager eq_refl Hnn H1 H2)).
Defined.

End ReachableQuorum.

(** ** Construction and initialisation *)

Section Lifecycle.

Implicit Types (vm : ValidatorManager) (m : option (gmap string Z)).
Implicit Types (b : ValidatorBackend) (height : N).

Lemma HasPrepareQuorum_uninitialised vm (stateName : stateType)
    (proposalMessage : option Message) (msgs : list Message) :
  vm.(validatorsVotingPower) = None ->
  (HasPrepareQuorum vm stateName proposalMessage msgs).1 = false.
Proof.
  intros Hvp. unfold HasPrepareQuorum.
  destruct proposalMessage as [p|]; [|done].
  destruct (scanPrepareMessages _ _ _) as [senders|]; [|done].
  simpl. unfold HasQuorum. by rewrite Hvp.
Qed.

Lemma afterCall_fixed vm (c : call) :
  (afterCall vm c).(minerAddress) = vm.(minerAddress)
  /\ (afterCall vm c).(backend) = vm.(backend).
Proof.
  destruct c as [height|m| |]; simpl; [| |done|done].
  - unfold Init, setCurrentVotingPower.
    destruct (GetVotingPowers (backend vm) height) as [m [e|]]; [done|].
    by destruct (_ <=? _).
  - unfold setCurrentVotingPower. by destruct (_ <=? _).
Qed.

Lemma afterCalls_fixed vm (cs : list call) :
  (afterCalls vm cs).(minerAddress) = vm.(minerAddress)
  /\ (afterCalls vm cs).(backend) = vm.(backend).
Proof.
  unfold afterCalls. revert vm.
  induction cs as [|c cs IH]; intros vm; simpl; [done|].
  destruct (IH (afterCall vm c)) as [-> ->]. apply afterCall_fixed.
Qed.

Lemma totalPower_pos_stored m :
  0 < totalPower (default ∅ m) -> is_Some m.
Proof.
  destruct m as [vp|]; [eauto|].
  simpl. unfold totalPower. rewrite map_to_list_empty. simpl. lia.
Qed.

(** X10: [NewValidatorManager] fails exactly when the backend cannot
    give the miner address, and then hands that error on with no
    manager; otherwise it returns a manager that keeps the address and
    the backend and answers false to every [HasQuorum] and
    [HasPrepareQuorum] query. *)
Theorem NewValidatorManager_result b :
  match (GetMinerAddress b).2 with
  | Some e => NewValidatorManager b = (None, Some e)
  | None =>
      exists vm,
        NewValidatorManager b = (Some vm, None)
        /\ vm.(minerAddress) = (GetMinerAddress b).1
        /\ vm.(backend) = b
        /\ (forall S : gset string, HasQuorum vm S = false)
        /\ (forall (stateName : stateType) (p : option Message)
                   (msgs : list Message),
              (HasPrepareQuorum vm stateName p msgs).1 = false)
  end.
Proof.
  unfold NewValidatorManager.
  destruct (GetMinerAddress b) as [a [e|]]; simpl; [done|].
  eexists. split; [reflexivity|]. simpl.
  split; [done|]. split; [done|]. split.
  - intros S. reflexivity.
  - intros stateName p msgs. by apply HasPrepareQuorum_uninitialised.
Qed.

(** X11: an [Init] that returns an error, whichever it is, leaves the
    manager as it was; the error is the backend's own or
    [errVotingPowerNotCorrect]. *)
Theorem Init_failure_keeps_manager vm height (e : error) :
  (Init vm height).2 = Some e ->
  (Init vm height).1 = vm
  /\ ((GetVotingPowers vm.(backend) height).2 = Some e
      \/ (GetVotingPowers vm.(backend) height).2 = None
         /\ e = errVotingPowerNotCorrect).
Proof.
  unfold Init, setCurrentVotingPower.
  destruct (GetVotingPowers (backend vm) height) as [m [e'|]]; simpl.
  - intros [= ->]. split; [done|by left].
  - destruct (_ <=? _); simpl; [|done].
    intros [= <-]. split; [done|by right].
Qed.

Lemma Init_failure_keeps_manager_witness :
  (Init flakyManager 7).2 = Some (backendError "unavailable")
  /\ (Init flakyManager 7).1 = flakyManager.
Proof.
  assert (He : (Init flakyManager 7).2 = Some (backendError "unavailable"))
    by reflexivity.
  split; [exact He|].
  exact (proj1 (Init_failure_keeps_manager flakyManager 7 _ He)).
Defined.

(** X12: [Init] returns no error exactly when the backend returned
    none and the powers it served sum to more than zero; the manager
    then stores that mapping, which is not nil, with the quorum of its
    total as threshold. *)
Theorem Init_success vm height :
  ((Init vm height).2 = None <->
   (GetVotingPowers vm.(backend) height).2 = None
   /\ 0 < totalPower (default ∅ (GetVotingPowers vm.(backend) height).1))
  /\ ((Init vm height).2 = None ->
      (Init vm height).1.(validatorsVotingPower) =
        (GetVotingPowers vm.(backend) height).1
      /\ is_Some (Init vm height).1.(validatorsVotingPower)
      /\ (Init vm height).1.(quorumSize) =
         calculateQuorum
           (totalPower (default ∅ (GetVotingPowers vm.(backend) height).1))).
Proof.
  unfold Init.
  destruct (GetVotingPowers (backend vm) height) as [m [e|]]; simpl.
  - split; [split; [done|by intros [? _]]|done].
  - destruct (Z.le_gt_cases (totalPower (default ∅ m)) 0) as [Hle|Hlt].
    + rewrite setCurrentVotingPower_reject by done. simpl.
      split; [split; [done|lia]|done].
    + rewrite setCurrentVotingPower_accept by done. simpl.
      split; [done|]. intros _.
      split; [done|]. split; [by apply totalPower_pos_stored|done].
Qed.

Lemma Init_success_witness :
  (Init freshManager 1).2 = None
  /\ (Init freshManager 1).1.(validatorsVotingPower) = Some threeValidators
  /\ (Init freshManager 1).1.(quorumSize) = 3.
Proof.
  assert (H : (Init freshManager 1).2 = None) by reflexivity.
  destruct (proj2 (Init_success freshManager 1) H) as (Hm & _ & Hq).
  split; [exact H|]. split; [exact Hm|].
  rewrite Hq. vm_compute. reflexivity.
Defined.

(** X13: the miner address a manager was built with, and its backend,
    stay the same through every sequence of calls. *)
Theorem minerAddress_fixed b vm (cs : list call) :
  (NewValidatorManager b).1 = Some vm ->
  (afterCalls vm cs).(minerAddress) = (GetMinerAddress b).1
  /\ (afterCalls vm cs).(backend) = b.
Proof.
  intros Hnew. destruct (afterCalls_fixed vm cs) as [-> ->].
  revert Hnew. unfold NewValidatorManager.
  destruct (GetMinerAddress b) as [a [e|]]; simpl; [done|].
  by intros [= <-].
Qed.

Lemma minerAddress_fixed_witness :
  (NewValidatorManager sampleBackend).1 = Some freshManager
  /\ (afterCalls freshManager
        [CallInit 0; CallInit 1;
         CallSetCurrentVotingPower (Some unevenValidators)]).(minerAddress)
     = "A"%string.
Proof.
  split; [reflexivity|].
  exact (proj1 (minerAddress_fixed sampleBackend freshManager
                  [CallInit 0; CallInit 1;
                   CallSetCurrentVotingPower (Some unevenValidators)]
                  eq_refl)).
Defined.

(** X14: the weights are replaced as a whole: an [Init] that succeeds
    leaves the same manager whatever calls were made before it. *)
Theorem Init_forgets_history vm height (cs : list call) :
  (Init vm height).2 = None ->
  Init (afterCalls vm cs) height = Init vm height.
Proof.
  destruct (afterCalls_fixed vm cs) as [Hm Hb].
  unfold Init. rewrite Hb.
  destruct (GetVotingPowers (backend vm) height) as [m [e|]]; simpl; [done|].
  unfold setCurrentVotingPower.
  destruct (_ <=? _); simpl; [done|].
  intros _. by rewrite Hm, Hb.
Qed.

Lemma Init_forgets_history_witness :
  (Init freshManager 1).2 = None
  /\ Init (afterCalls freshManager
             [CallSetCurrentVotingPower (Some unevenValidators)]) 1 =
     Init freshManager 1.
Proof.
  assert (H : (Init freshManager 1).2 = None) by reflexivity.
  split; [exact H|].
  exact (Init_forgets_history freshManager 1
           [CallSetCurrentVotingPower (Some unevenValidators)] H).
Defined.

End Lifecycle.

(** ** Address sets and the prepare-quorum policy *)

Section AddressSets.

Implicit Types (vm : ValidatorManager) (p : Message) (msgs : list Message).

Lemma convertMessageToAddressSet_acc msgs (acc : gset string) :
  foldl (fun result x => {[ string_of_list_byte x.(From) ]} ∪ result) acc msgs
  = acc ∪ list_to_set (senderKey <$> msgs).
Proof.
  revert acc. induction msgs as [|m msgs IH]; intros acc; simpl.
  - by rewrite (right_id_L ∅ (∪)).
  - rewrite IH. unfold senderKey.
    rewrite (comm_L (∪) {[ _ ]} acc). by rewrite (assoc_L (∪)).
Qed.

Lemma convertMessageToAddressSet_list msgs :
  convertMessageToAddressSet msgs = list_to_set (senderKey <$> msgs).
Proof.
  unfold convertMessageToAddressSet.
  by rewrite convertMessageToAddressSet_acc, (left_id_L ∅ (∪)).
Qed.

Lemma prepareSenders_convert p msgs :
  prepareSenders p msgs = {[ senderKey p ]} ∪ convertMessageToAddressSet msgs.
Proof.
  unfold prepareSenders. rewrite convertMessageToAddressSet_list.
  unfold senderKey. by rewrite <- list_fmap_compose.
Qed.

Lemma size_list_to_set_le (l : list string) :
  (size (list_to_set l : gset string) <= length l)%nat.
Proof.
  induction l as [|x l IH].
  - rewrite list_to_set_nil, size_empty. done.
  - rewrite list_to_set_cons. simpl.
    destruct (decide (x ∈ (list_to_set l : gset string))) as [Hin|Hni].
    + replace ({[x]} ∪ list_to_set l : gset string) with
        (list_to_set l : gset string); [lia|].
      apply set_eq. intros a. rewrite elem_of_union, elem_of_singleton.
      split; [tauto|]. intros [->|?]; done.
    + rewrite size_union, size_singleton; [lia|].
      intros a Ha Hb. apply elem_of_singleton in Ha. by subst.
Qed.

Lemma senderKey_in_convert p msgs :
  senderKey p ∈ convertMessageToAddressSet msgs <->
  Exists (fun m => m.(From) = p.(From)) msgs.
Proof.
  rewrite convertMessageToAddressSet_list, elem_of_list_to_set.
  rewrite list_elem_of_fmap, Exists_exists. split.
  - intros (m & Hk & Hm). exists m. split; [done|].
    symmetry. by apply string_of_list_byte_inj.
  - intros (m & Hm & HF). exists m. split; [|done].
    unfold senderKey. by rewrite HF.
Qed.

(** The proposer is among the senders of [msgs] or is not. *)
Lemma proposer_among_dec (proposer : list byte) msgs :
  Exists (fun m => m.(From) = proposer) msgs
  \/ Forall (fun m => m.(From) ≠ proposer) msgs.
Proof.
  induction msgs as [|m msgs [IH|IH]].
  - right. apply Forall_nil_2.
  - left. by apply Exists_cons_tl.
  - destruct (bytes.Equal (From m) proposer) eqn:E.
    + left. apply Exists_cons_hd. by apply bytes_Equal_eq.
    + right. apply Forall_cons. split; [by apply bytes_Equal_neq|done].
Qed.

Lemma votingPowerOfSenders_mono (vp : gmap string Z) (S S' : gset string) :
  map_Forall (fun _ v => 0 <= v) vp ->
  S ⊆ S' ->
  votingPowerOfSenders vp S <= votingPowerOfSenders vp S'.
Proof.
  intros Hnn Hsub.
  assert (HS' : S' = S ∪ (S' ∖ S)).
  { apply set_eq. intros a. rewrite elem_of_union, elem_of_difference.
    split; [|intros [?|[? _]]; [by apply Hsub|done]].
    intros Ha. destruct (decide (a ∈ S)); [by left|by right]. }
  rewrite HS' at 1. rewrite <- !sumVotePower_spec, sumVotePower_disj_union.
  - pose proof (sumVotePower_nonneg vp (elements (S' ∖ S)) Hnn). lia.
  - intros a Ha Hb. apply elem_of_difference in Hb. tauto.
Qed.

(** X15: [convertMessageToAddressSet] returns the set of the sender
    keys of the messages: an address is in it exactly when some message
    carries it, so the set is never larger than the slice, is empty
    for an empty slice, and is the union of the sets of the two parts
    of a slice. *)
Theorem convertMessageToAddressSet_spec msgs (more : list Message) :
  (forall a : string,
     a ∈ convertMessageToAddressSet msgs <->
     exists m, m ∈ msgs /\ string_of_list_byte m.(From) = a)
  /\ (size (convertMessageToAddressSet msgs) <= length msgs)%nat
  /\ convertMessageToAddressSet [] = ∅
  /\ convertMessageToAddressSet (msgs ++ more) =
     convertMessageToAddressSet msgs ∪ convertMessageToAddressSet more.
Proof.
  rewrite !convertMessageToAddressSet_list.
  split; [|split; [|split]].
  - intros a. rewrite elem_of_list_to_set, list_elem_of_fmap.
    unfold senderKey. split; intros (m & H1 & H2); exists m; by split.
  - etrans; [apply size_list_to_set_le|]. by rewrite length_fmap.
  - reflexivity.
  - by rewrite fmap_app, list_to_set_app_L.
Qed.

(** X16: [HasPrepareQuorum] looks at which addresses sent the prepare
    messages, not at how many messages there are or in which order:
    two slices with the same sender addresses get the same answer and
    the same log. *)
Theorem HasPrepareQuorum_same_senders vm (stateName : stateType)
    (proposalMessage : option Message) msgs (msgs' : list Message) :
  (forall a : list byte, a ∈ From <$> msgs <-> a ∈ From <$> msgs') ->
  HasPrepareQuorum vm stateName proposalMessage msgs =
  HasPrepareQuorum vm stateName proposalMessage msgs'.
Proof.
  intros Hsame. destruct proposalMessage as [p|]; [|done].
  assert (Hex : Exists (fun m => m.(From) = p.(From)) msgs <->
                Exists (fun m => m.(From) = p.(From)) msgs').
  { rewrite !Exists_exists. split.
    - intros (m & Hm & HF).
      assert (Hin : From m ∈ From <$> msgs) by (apply list_elem_of_fmap; eauto).
      apply Hsame, list_elem_of_fmap in Hin as (m' & HF' & Hm').
      exists m'. split; [done|congruence].
    - intros (m & Hm & HF).
      assert (Hin : From m ∈ From <$> msgs') by (apply list_elem_of_fmap; eauto).
      apply Hsame, list_elem_of_fmap in Hin as (m' & HF' & Hm').
      exists m'. split; [done|congruence]. }
  unfold HasPrepareQuorum.
  destruct (proposer_among_dec (From p) msgs) as [He|Hall].
  - rewrite (scanPrepareMessages_stops _ _ _ He).
    by rewrite (scanPrepareMessages_stops _ _ _ (proj1 Hex He)).
  - destruct (proposer_among_dec (From p) msgs') as [He'|Hall'].
    + apply Hex in He'. apply Exists_exists in He' as (m & Hm & HF).
      rewrite Forall_forall in Hall. by destruct (Hall m Hm).
    + rewrite (scanPrepareMessages_collects _ _ _ Hall).
      rewrite (scanPrepareMessages_collects _ _ _ Hall').
      do 3 f_equal. apply set_eq. intros a.
      rewrite !elem_of_list_to_set, !list_elem_of_fmap.
      split; intros (x & -> & Hx); exists x; (split; [done|]);
        by apply Hsame.
Qed.

Lemma HasPrepareQuorum_same_senders_witness :
  (forall a : list byte,
     a ∈ From <$> [msgB; msgC; msgB] <-> a ∈ From <$> [msgC; msgB])
  /\ HasPrepareQuorum sampleManager prepare (Some msgA) [msgB; msgC; msgB] =
     HasPrepareQuorum sampleManager prepare (Some msgA) [msgC; msgB].
Proof.
  assert (Hsame : forall a : list byte,
            a ∈ From <$> [msgB; msgC; msgB] <-> a ∈ From <$> [msgC; msgB]).
  { intros a. simpl. rewrite !elem_of_cons, elem_of_nil. tauto. }
  split; [exact Hsame|].
  exact (HasPrepareQuorum_same_senders sampleManager prepare (Some msgA)
           [msgB; msgC; msgB] [msgC; msgB] Hsame).
Defined.

(** X17: [HasPrepareQuorum] answers true exactly when there is a
    proposal, the proposer's key is not in the address set of the
    prepare messages, and [HasQuorum] holds for that set with the
    proposer's key added.  It logs at most one entry, and none when
    it answers true. *)
Theorem HasPrepareQuorum_true_iff vm (stateName : stateType)
    (proposalMessage : option Message) msgs :
  ((HasPrepareQuorum vm stateName proposalMessage msgs).1 = true <->
   exists p,
     proposalMessage = Some p
     /\ (senderKey p ∉ convertMessageToAddressSet msgs)
     /\ (HasQuorum vm ({[ senderKey p ]} ∪ convertMessageToAddressSet msgs)
         = true))
  /\ (length (HasPrepareQuorum vm stateName proposalMessage msgs).2 <= 1)%nat
  /\ ((HasPrepareQuorum vm stateName proposalMessage msgs).1 = true ->
      (HasPrepareQuorum vm stateName proposalMessage msgs).2 = []).
Proof.
  destruct proposalMessage as [p|].
  - unfold HasPrepareQuorum.
    destruct (proposer_among_dec (From p) msgs) as [He|Hall].
    + rewrite (scanPrepareMessages_stops _ _ _ He). simpl.
      split; [|split; [lia|done]].
      split; [done|]. intros (q & [= <-] & Hni & _).
      destruct Hni. by apply senderKey_in_convert.
    + rewrite (scanPrepareMessages_collects _ _ _ Hall). simpl.
      fold (prepareSenders p msgs). rewrite prepareSenders_convert.
      split; [|split; [lia|done]]. split.
      * intros Hq. exists p. split; [done|]. split; [|done].
        rewrite senderKey_in_convert, Exists_exists.
        intros (m & Hm & HF). rewrite Forall_forall in Hall.
        by destruct (Hall m Hm).
      * by intros (q & [= <-] & _ & Hq).
  - simpl. split; [|split; [destruct (decide _); simpl; lia|done]].
    split; [done|]. by intros (q & ? & _).
Qed.

Lemma HasPrepareQuorum_true_iff_witness :
  (HasPrepareQuorum unevenManager commit (Some msgA) [msgB]).1 = true
  /\ (HasPrepareQuorum unevenManager commit (Some msgA) [msgB]).2 = [].
Proof.
  assert (H : (HasPrepareQuorum unevenManager commit (Some msgA)
                 [msgB]).1 = true) by (vm_compute; reflexivity).
  split; [exact H|].
  exact (proj2 (proj2 (HasPrepareQuorum_true_iff unevenManager commit
                         (Some msgA) [msgB])) H).
Defined.

(** X18: with a stored mapping of non-negative powers, prepare messages
    that arrive later and are not from the proposer never take a
    prepare quorum away. *)
Theorem HasPrepareQuorum_more_messages vm (vp : gmap string Z)
    (stateName : stateType) p msgs (later : list Message) :
  vm.(validatorsVotingPower) = Some vp ->
  map_Forall (fun _ v => 0 <= v) vp ->
  Forall (fun m => m.(From) ≠ p.(From)) later ->
  (HasPrepareQuorum vm stateName (Some p) msgs).1 = true ->
  (HasPrepareQuorum vm stateName (Some p) (msgs ++ later)).1 = true.
Proof.
  intros Hvp Hnn Hlater. unfold HasPrepareQuorum.
  destruct (proposer_among_dec (From p) msgs) as [He|Hall].
  - by rewrite (scanPrepareMessages_stops _ _ _ He).
  - rewrite (scanPrepareMessages_collects _ _ _ Hall).
    rewrite (scanPrepareMessages_collects _ _ _
               (proj2 (Forall_app _ _ _) (conj Hall Hlater))).
    simpl. rewrite !HasQuorum_unfold, Hvp, !bool_decide_eq_true.
    intros Hq. etrans; [exact Hq|].
    apply votingPowerOfSenders_mono; [done|].
    rewrite !fmap_app, list_to_set_app_L.
    intros a. rewrite !elem_of_union. tauto.
Qed.

Lemma HasPrepareQuorum_more_messages_witness :
  unevenManager.(validatorsVotingPower) = Some unevenValidators
  /\ map_Forall (fun _ v => 0 <= v) unevenValidators
  /\ Forall (fun m => m.(From) ≠ msgA.(From)) [msgC]
  /\ (HasPrepareQuorum unevenManager prepare (Some msgA) [msgB]).1 = true
  /\ (HasPrepareQuorum unevenManager prepare (Some msgA)
        ([msgB] ++ [msgC])).1 = true.
Proof.
  assert (Hnn : map_Forall (fun _ v => 0 <= v) unevenValidators)
    by compute_done.
  assert (Hl : Forall (fun m => m.(From) ≠ msgA.(From)) [msgC]).
  { apply Forall_cons. split; [discriminate|apply Forall_nil_2]. }
  assert (Hq : (HasPrepareQuorum unevenManager prepare (Some msgA)
                  [msgB]).1 = true) by (vm_compute; reflexivity).
  split; [reflexivity|]. split; [exact Hnn|].
  split; [exact Hl|]. split; [exact Hq|].
  exact (HasPrepareQuorum_more_messages unevenManager unevenValidators
           prepare msgA [msgB] [msgC] eq_refl Hnn Hl Hq).
Defined.

End AddressSets.

(** ** The stored weights of a reachable manager *)

Section StoredWeights.

(** X19: the weight mapping a reachable manager stores is never empty:
    some validator in it has a power above zero. *)
Theorem reachable_positive_validator (vm : ValidatorManager)
    (vp : gmap string Z) :
  reachable vm ->
  vm.(validatorsVotingPower) = Some vp ->
  vp ≠ ∅ /\ exists (a : string) (v : Z), vp !! a = Some v /\ 0 < v.
Proof.
  intros Hr Hvp. destruct (reachable_stored vm vp Hr Hvp) as [_ HT].
  assert (Hex : exists (a : string) (v : Z), vp !! a = Some v /\ 0 < v).
  { unfold totalPower in HT.
    apply Zsum_pos_term in HT as (v & Hv & Hpos).
    apply list_elem_of_fmap in Hv as ([a w] & -> & Haw).
    apply elem_of_map_to_list in Haw. by exists a, w. }
  split; [|exact Hex].
  intros ->. destruct Hex as (a & v & Ha & _).
  by rewrite lookup_empty in Ha.
Qed.

Lemma reachable_positive_validator_witness :
  reachable unevenManager
  /\ unevenManager.(validatorsVotingPower) = Some unevenValidators
  /\ unevenValidators ≠ ∅.
Proof.
  split; [exact reachable_unevenManager|]. split; [reflexivity|].
  exact (proj1 (reachable_positive_validator unevenManager unevenValidators
                  reachable_unevenManager eq_refl)).
Defined.

End StoredWeights.

(** ** The definitions at work *)

Section Examples.

Example threeValidators_installed :
  Init freshManager 1 = (sampleManager, None).
Proof. vm_compute. reflexivity. Qed.

Example threeValidators_quorum :
  HasQuorum sampleManager {["A"]} = false
  /\ HasQuorum sampleManager {["A"; "B"]} = false
  /\ HasQuorum sampleManager {["A"; "B"; "C"]} = true
  /\ HasQuorum sampleManager {["A"; "B"; "Z"]} = false.
Proof. vm_compute. done. Qed.

Example unevenValidators_quorum :
  let vm := (setCurrentVotingPower freshManager (Some unevenValidators)).1 in
  vm.(quorumSize) = 9
  /\ HasQuorum vm {["A"]} = true
  /\ HasQuorum vm {["B"; "C"]} = false.
Proof. vm_compute. done. Qed.

Example freshManager_no_quorum :
  HasQuorum freshManager ∅ = false
  /\ HasQuorum freshManager {["A"; "B"; "C"]} = false.
Proof. vm_compute. done. Qed.

Example big_Div_examples :
  big.Div 7 3 = 2 /\ big.Div (-7) 3 = -3
  /\ big.Div 7 (-3) = -2 /\ big.Div (-7) (-3) = 3.
Proof. vm_compute. done. Qed.

Example convertMessageToAddressSet_example :
  convertMessageToAddressSet [msgB; msgC; msgB] = {["B"; "C"]}.
Proof. vm_compute. reflexivity. Qed.

End Examples.
